(** * Process-Scheduling-Simulator: the four scheduling policies

    A shallow embedding of [process_scheduling.py] (the [Process] and
    [GanttEntry] classes, [schedule_fcfs], [schedule_sjf], [schedule_rr],
    [schedule_priority], [get_results_dict] and the dispatch of
    [api_schedule]) and the properties of the specification proved or
    refuted on it.

    Python objects are mutable and shared by reference: the ready queue of
    [schedule_rr] and the [completed] list of [schedule_sjf] hold references
    to the very [Process] objects of the list being scheduled.  The embedding
    therefore threads an explicit store (a list of [Process] values addressed
    by position) and represents every Python list of processes as a list of
    addresses into it.  Integers are Python's unbounded [int], hence [Z]. *)

From Stdlib Require Import ZArith QArith String Lia.
From stdpp Require Import base list sorting.

Local Open Scope nat_scope.

(** ** Data model *)

(** [class Process]: the eight attributes set by [__init__]. *)
Record Process := mkProcess {
  process_id : string;
  arrival_time : Z;
  burst_time : Z;
  priority : Z;
  remaining_time : Z;
  finish_time : Z;
  turnaround_time : Z;
  waiting_time : Z
}.

(** [Process.__init__]. *)
Definition Process_init (process_id : string) (arrival_time burst_time priority : Z)
  : Process :=
  mkProcess process_id arrival_time burst_time priority burst_time 0 0 0.

(** Attribute assignments [p.remaining_time = v], [p.finish_time = v], ... *)
Definition set_remaining_time (v : Z) (p : Process) : Process :=
  mkProcess (process_id p) (arrival_time p) (burst_time p) (priority p)
            v (finish_time p) (turnaround_time p) (waiting_time p).
Definition set_finish_time (v : Z) (p : Process) : Process :=
  mkProcess (process_id p) (arrival_time p) (burst_time p) (priority p)
            (remaining_time p) v (turnaround_time p) (waiting_time p).
Definition set_turnaround_time (v : Z) (p : Process) : Process :=
  mkProcess (process_id p) (arrival_time p) (burst_time p) (priority p)
            (remaining_time p) (finish_time p) v (waiting_time p).
Definition set_waiting_time (v : Z) (p : Process) : Process :=
  mkProcess (process_id p) (arrival_time p) (burst_time p) (priority p)
            (remaining_time p) (finish_time p) (turnaround_time p) v.

(** [Process.copy]: a fresh object with the same descriptor and the same
    [remaining_time]; the three result attributes restart at 0. *)
Definition copy (self : Process) : Process :=
  let p := Process_init (process_id self) (arrival_time self)
                        (burst_time self) (priority self) in
  set_remaining_time (remaining_time self) p.

(** [Process.to_dict]: seven of the eight attributes ([remaining_time] is
    not exported). *)
Record ProcessDict := mkProcessDict {
  d_process_id : string;
  d_arrival_time : Z;
  d_burst_time : Z;
  d_priority : Z;
  d_finish_time : Z;
  d_turnaround_time : Z;
  d_waiting_time : Z
}.

Definition to_dict (self : Process) : ProcessDict :=
  mkProcessDict (process_id self) (arrival_time self) (burst_time self)
                (priority self) (finish_time self) (turnaround_time self)
                (waiting_time self).

(** [class GanttEntry]; its [to_dict] exports the same three fields, so the
    entry itself stands for its dictionary. *)
Record GanttEntry := mkGanttEntry {
  ge_process_id : string;
  start_time : Z;
  end_time : Z
}.

Definition IDLE : string := "IDLE"%string.

(** The dictionary returned by [get_results_dict].  The three derived
    figures are kept as exact rationals: Python's float division and
    [round] are not modelled. *)
Record ResultDict := mkResultDict {
  processes : list ProcessDict;
  gantt : list GanttEntry;
  total_time : Z;
  total_idle_time : Z;
  average_turnaround_time : Q;
  average_waiting_time : Q;
  cpu_utilization : Q
}.

(** ** The store *)

(** Objects live in a store addressed by position; allocation appends. *)
Abbreviation ref := nat (only parsing).
Abbreviation Heap := (list Process) (only parsing).

#[global] Instance Process_inhabited : Inhabited Process :=
  populate (Process_init EmptyString 0 0 0).

(** [setattr r f h]: one attribute assignment on the object at [r]. *)
Definition setattr (r : ref) (f : Process -> Process) (h : Heap) : Heap :=
  <[r := f (h !!! r)]> h.

(** The three assignments made when a process completes:
    [p.finish_time = current_time],
    [p.turnaround_time = p.finish_time - p.arrival_time],
    [p.waiting_time = p.turnaround_time - p.burst_time]. *)
Definition record_completion (r : ref) (current_time : Z) (h : Heap) : Heap :=
  let h := setattr r (set_finish_time current_time) h in
  let h := setattr r (fun p => set_turnaround_time
                                 (finish_time p - arrival_time p) p) h in
  setattr r (fun p => set_waiting_time (turnaround_time p - burst_time p) p) h.

(** [[p.copy() for p in processes]]: the copies are allocated in order at the
    end of the store; the new list holds their addresses. *)
Definition copy_list (h : Heap) (ps : list ref) : Heap * list ref :=
  (h ++ map (fun r => copy (h !!! r)) ps, seq (length h) (length ps)).

(** ** Outcomes *)

(** The exceptions the modelled code can raise. *)
Inductive exn := IndexError | ValueError | ZeroDivisionError.

(** A call returns a value, raises, or is still running when the fuel given
    to its [while] loop is spent. *)
Inductive outcome (A : Type) :=
| Ok (a : A)
| Raise (e : exn)
| OutOfFuel.
Arguments Ok {A} a.
Arguments Raise {A} e.
Arguments OutOfFuel {A}.

#[global] Instance outcome_bind : MBind outcome := fun A B k m =>
  match m with
  | Ok a => k a
  | Raise e => Raise e
  | OutOfFuel => OutOfFuel
  end.

(** ** Helpers standing for Python built-ins *)

(** [list.sort(key=...)] is stable; a stable insertion sort computes the same
    list.  The key is read through the store. *)
Section Sort.
Context {A : Type} (key : A -> Z).

Fixpoint insert_by (x : A) (l : list A) : list A :=
  match l with
  | [] => [x]
  | y :: l' => if (key x <=? key y)%Z then x :: y :: l'
               else y :: insert_by x l'
  end.

Definition sort_by (l : list A) : list A := foldr insert_by [] l.
End Sort.

(** [min(xs)] on integers: [None] stands for the [ValueError] of an empty
    argument. *)
Definition py_min (xs : list Z) : option Z :=
  match xs with
  | [] => None
  | x :: xs' => Some (foldl Z.min x xs')
  end.

(** Python's order on pairs (tuples of two ints). *)
Definition key_lt (k1 k2 : Z * Z) : bool :=
  (k1.1 <? k2.1)%Z || ((k1.1 =? k2.1)%Z && (k1.2 <? k2.2)%Z).

(** [min(xs, key=...)]: the first element whose key is minimal. *)
Fixpoint py_min_by {A} (key : A -> Z * Z) (best : A) (l : list A) : A :=
  match l with
  | [] => best
  | x :: l' => py_min_by key (if key_lt (key x) (key best) then x else best) l'
  end.

(** [sum(f(p) for p in processes)]. *)
Definition sumZ {A} (f : A -> Z) (l : list A) : Z :=
  foldr (fun x acc => (f x + acc)%Z) 0%Z l.

(** True division [a / b] of two ints. *)
Definition py_truediv (a b : Z) : outcome Q :=
  if (b =? 0)%Z then Raise ZeroDivisionError
  else Ok (Qmake a 1 / Qmake b 1)%Q.

(** ** [get_results_dict] *)

Definition get_results_dict (h : Heap) (procs : list ref)
    (gantt : list GanttEntry) (total_time total_idle_time : Z)
  : outcome ResultDict :=
  let total_turnaround := sumZ (fun p => turnaround_time (h !!! p)) procs in
  let total_waiting := sumZ (fun p => waiting_time (h !!! p)) procs in
  avg_turnaround ←
    match procs with
    | [] => Ok 0%Q
    | _ => py_truediv total_turnaround (Z.of_nat (length procs))
    end;
  avg_waiting ←
    match procs with
    | [] => Ok 0%Q
    | _ => py_truediv total_waiting (Z.of_nat (length procs))
    end;
  cpu_utilization ←
    (if (total_time >? 0)%Z then
       x ← py_truediv (total_time - total_idle_time) total_time;
       Ok (x * Qmake 100 1)%Q
     else Ok 0%Q);
  Ok (mkResultDict (map (fun p => to_dict (h !!! p)) procs) gantt
                   total_time total_idle_time
                   avg_turnaround avg_waiting cpu_utilization).

(** What a policy hands back: the store after the call, the caller's list
    object after the call, and the returned dictionary. *)
Definition policy_outcome : Type := outcome (Heap * list ref * ResultDict).

(** ** [schedule_fcfs] *)

(** The [for process in processes] loop. *)
Fixpoint fcfs_loop (l : list ref) (h : Heap) (gantt : list GanttEntry)
    (current_time total_idle_time : Z)
  : Heap * list GanttEntry * Z * Z :=
  match l with
  | [] => (h, gantt, current_time, total_idle_time)
  | process :: rest =>
    let arrival := arrival_time (h !!! process) in
    let '(gantt, total_idle_time, current_time) :=
      if (current_time <? arrival)%Z then
        (gantt ++ [mkGanttEntry IDLE current_time arrival],
         (total_idle_time + (arrival - current_time))%Z,
         arrival)
      else (gantt, total_idle_time, current_time) in
    let burst := burst_time (h !!! process) in
    let gantt := gantt ++ [mkGanttEntry (process_id (h !!! process))
                             current_time (current_time + burst)%Z] in
    let current_time := (current_time + burst)%Z in
    let h := record_completion process current_time h in
    fcfs_loop rest h gantt current_time total_idle_time
  end.

(** [processes.sort] works in place: the caller's list is the sorted one
    afterwards. *)
Definition schedule_fcfs (h : Heap) (ps : list ref) : policy_outcome :=
  let ps := sort_by (fun p => arrival_time (h !!! p)) ps in
  let '(h, gantt, current_time, total_idle_time) := fcfs_loop ps h [] 0%Z 0%Z in
  res ← get_results_dict h ps gantt current_time total_idle_time;
  Ok (h, ps, res).

(** ** [schedule_sjf] and [schedule_priority] *)

(** The two functions are the same text up to the key given to [min]:
    [(burst_time, arrival_time)] for SJF, [(priority, arrival_time)] for
    Priority.  [p not in completed] compares object identities. *)
Section NonPreemptive.
Variable key : Process -> Z * Z.
Variable procs : list ref.

Definition available_at (h : Heap) (completed : list ref) (current_time : Z)
  : list ref :=
  filter (fun p => (arrival_time (h !!! p) <= current_time)%Z
                   /\ p ∉ completed) procs.

Definition pending (completed : list ref) : list ref :=
  filter (fun p => p ∉ completed) procs.

Fixpoint select_loop (fuel : nat) (h : Heap) (completed : list ref)
    (gantt : list GanttEntry) (current_time total_idle_time : Z)
  : outcome (Heap * list GanttEntry * Z * Z) :=
  if length completed <? length procs then
    match fuel with
    | O => OutOfFuel
    | S fuel =>
      match available_at h completed current_time with
      | [] =>
        match py_min (map (fun p => arrival_time (h !!! p))
                          (pending completed)) with
        | None => Raise ValueError
        | Some next_arrival =>
          select_loop fuel h completed
            (gantt ++ [mkGanttEntry IDLE current_time next_arrival])
            next_arrival
            (total_idle_time + (next_arrival - current_time))%Z
        end
      | first :: others =>
        let selected := py_min_by (fun p => key (h !!! p)) first others in
        let burst := burst_time (h !!! selected) in
        let gantt := gantt ++ [mkGanttEntry (process_id (h !!! selected))
                                 current_time (current_time + burst)%Z] in
        let current_time := (current_time + burst)%Z in
        let h := record_completion selected current_time h in
        select_loop fuel h (completed ++ [selected]) gantt
                    current_time total_idle_time
      end
    end
  else Ok (h, gantt, current_time, total_idle_time).

Definition schedule_select (fuel : nat) (h : Heap) : policy_outcome :=
  '(h, gantt, current_time, total_idle_time) ←
     select_loop fuel h [] [] 0%Z 0%Z;
  res ← get_results_dict h procs gantt current_time total_idle_time;
  Ok (h, procs, res).
End NonPreemptive.

Definition schedule_sjf (fuel : nat) (h : Heap) (ps : list ref) : policy_outcome :=
  schedule_select (fun p => (burst_time p, arrival_time p)) ps fuel h.

Definition schedule_priority (fuel : nat) (h : Heap) (ps : list ref)
  : policy_outcome :=
  schedule_select (fun p => (priority p, arrival_time p)) ps fuel h.

(** ** [schedule_rr] *)

(** The local variables of [schedule_rr] that change in its loop.  The ready
    queue (a [deque]) holds references to the objects of [processes_copy]. *)
Record rr_state := mk_rr_state {
  rr_heap : Heap;
  ready_queue : list ref;
  rr_gantt : list GanttEntry;
  rr_current_time : Z;
  rr_total_idle_time : Z;
  completed : nat;
  process_index : nat
}.

(** The inner loop
    [while process_index < len(processes_copy) and
           processes_copy[process_index].arrival_time <= current_time],
    run over [waiting], the part of [processes_copy] from [process_index]
    on. *)
Fixpoint admit_arrivals (h : Heap) (current_time : Z) (waiting : list ref)
    (ready_queue : list ref) (process_index : nat) : list ref * nat :=
  match waiting with
  | [] => (ready_queue, process_index)
  | r :: waiting' =>
    if (arrival_time (h !!! r) <=? current_time)%Z then
      admit_arrivals h current_time waiting' (ready_queue ++ [r]) (S process_index)
    else (ready_queue, process_index)
  end.

Section RoundRobin.
Variable processes_copy : list ref.
Variable time_quantum : Z.

(** The [if not ready_queue] branch at the head of the loop body. *)
Definition rr_idle (st : rr_state) : outcome rr_state :=
  match ready_queue st with
  | [] =>
    match processes_copy !! process_index st with
    | None => Raise IndexError
    | Some r =>
      let next_arrival := arrival_time (rr_heap st !!! r) in
      Ok (mk_rr_state (rr_heap st)
            (ready_queue st ++ [r])
            (rr_gantt st ++
               [mkGanttEntry IDLE (rr_current_time st) next_arrival])
            next_arrival
            (rr_total_idle_time st + (next_arrival - rr_current_time st))%Z
            (completed st)
            (S (process_index st)))
    end
  | _ :: _ => Ok st
  end.

(** The rest of the loop body, from [ready_queue.popleft()] on. *)
Definition rr_run (st : rr_state) : outcome rr_state :=
  match ready_queue st with
  | [] => Raise IndexError
  | current :: queue =>
    let h := rr_heap st in
    let execute_time := Z.min time_quantum (remaining_time (h !!! current)) in
    let gantt := rr_gantt st ++
                   [mkGanttEntry (process_id (h !!! current))
                      (rr_current_time st)
                      (rr_current_time st + execute_time)%Z] in
    let current_time := (rr_current_time st + execute_time)%Z in
    let h := setattr current
               (fun p => set_remaining_time (remaining_time p - execute_time) p)
               h in
    let '(queue, process_index) :=
      admit_arrivals h current_time
        (drop (process_index st) processes_copy) queue (process_index st) in
    if (remaining_time (h !!! current) >? 0)%Z then
      Ok (mk_rr_state h (queue ++ [current]) gantt current_time
                      (rr_total_idle_time st) (completed st) process_index)
    else
      Ok (mk_rr_state (record_completion current current_time h) queue gantt
                      current_time (rr_total_idle_time st)
                      (S (completed st)) process_index)
  end.

(** One iteration of [while completed < len(processes_copy)]. *)
Definition rr_body (st : rr_state) : outcome rr_state :=
  st ← rr_idle st; rr_run st.

Fixpoint rr_loop (fuel : nat) (st : rr_state) : outcome rr_state :=
  if completed st <? length processes_copy then
    match fuel with
    | O => OutOfFuel
    | S fuel => st ← rr_body st; rr_loop fuel st
    end
  else Ok st.

(** The state on entry to the loop: the first process is queued when it
    has arrived at time 0. *)
Definition rr_init (h : Heap) : rr_state :=
  match processes_copy with
  | r :: _ =>
    if (arrival_time (h !!! r) <=? 0)%Z
    then mk_rr_state h [r] [] 0 0 0 1
    else mk_rr_state h [] [] 0 0 0 0
  | [] => mk_rr_state h [] [] 0 0 0 0
  end.
End RoundRobin.

(** The first two statements of [schedule_rr]: the private copies, sorted
    by arrival time. *)
Definition rr_processes_copy (h : Heap) (ps : list ref) : Heap * list ref :=
  let '(h, processes_copy) := copy_list h ps in
  (h, sort_by (fun p => arrival_time (h !!! p)) processes_copy).

Definition schedule_rr (fuel : nat) (h : Heap) (ps : list ref) (time_quantum : Z)
  : policy_outcome :=
  let '(h, processes_copy) := rr_processes_copy h ps in
  st ← rr_loop processes_copy time_quantum fuel (rr_init processes_copy h);
  res ← get_results_dict (rr_heap st) processes_copy (rr_gantt st)
          (rr_current_time st) (rr_total_idle_time st);
  Ok (rr_heap st, ps, res).

(** ** [api_schedule] *)

(** One entry of the request's [processes] array: [id], [arrival], [burst],
    [priority]. *)
Definition descriptor : Type := string * Z * Z * Z.

Definition Process_of_descriptor (d : descriptor) : Process :=
  let '(id, arrival, burst, prio) := d in Process_init id arrival burst prio.

(** The answers of the endpoint: a JSON error with its status code, or the
    result dictionary. *)
Inductive response :=
| ErrorResponse (message : string) (status : Z)
| ResultResponse (result : ResultDict).

Definition exn_message (e : exn) : string :=
  match e with
  | IndexError => "IndexError"
  | ValueError => "ValueError"
  | ZeroDivisionError => "ZeroDivisionError"
  end.

(** The body of [api_schedule] once the request is decoded; [None] is a
    call that has not answered within the fuel. *)
Definition api_schedule (fuel : nat) (processes_data : list descriptor)
    (algorithm : string) (time_quantum : Z) : option response :=
  let h := map Process_of_descriptor processes_data in
  let procs := seq 0 (length processes_data) in
  match procs with
  | [] => Some (ErrorResponse "No processes provided" 400)
  | _ =>
    let '(h', copies) := copy_list h procs in
    let run (r : policy_outcome) : option response :=
      match r with
      | Ok (_, _, result) => Some (ResultResponse result)
      | Raise e => Some (ErrorResponse (exn_message e) 500)
      | OutOfFuel => None
      end in
    if String.eqb algorithm "fcfs" then run (schedule_fcfs h' copies)
    else if String.eqb algorithm "sjf" then run (schedule_sjf fuel h' copies)
    else if String.eqb algorithm "rr"
         then run (schedule_rr fuel h' copies time_quantum)
    else if String.eqb algorithm "priority"
         then run (schedule_priority fuel h' copies)
    else Some (ErrorResponse "Invalid algorithm" 400)
  end.

(** ** Specification vocabulary *)

(** A record as [Process.__init__] builds it from a well-formed descriptor:
    non-negative arrival, positive burst, nothing executed yet. *)
Definition valid_process (p : Process) : Prop :=
  (0 <= arrival_time p)%Z /\ (0 < burst_time p)%Z
  /\ remaining_time p = burst_time p.

(** A valid input list: distinct objects of the store (the ids of one run
    are unique, so no record is listed twice), each a valid record. *)
Definition valid_input (h : Heap) (ps : list ref) : Prop :=
  NoDup ps /\ Forall (fun r => r < length h /\ valid_process (h !!! r)) ps.






Definition descriptor_of (p : Process) : descriptor :=
  (process_id p, arrival_time p, burst_time p, priority p).





(** The state of a record once it has completed at time [fin]. *)
Definition completed_at (fin : Z) (p : Process) : Process :=
  mkProcess (process_id p) (arrival_time p) (burst_time p) (priority p)
            (remaining_time p) fin (fin - arrival_time p)
            (fin - arrival_time p - burst_time p).



(** The states of [schedule_rr] at the head of its loop. *)
Inductive rr_reachable (pc : list ref) (q : Z) (h0 : Heap) : rr_state -> Prop :=
| rr_reach_init : rr_reachable pc q h0 (rr_init pc h0)
| rr_reach_step st st' :
    rr_reachable pc q h0 st ->
    completed st < length pc ->
    rr_body pc q st = Ok st' ->
    rr_reachable pc q h0 st'.



(** What holds of the loop of [schedule_rr] on every input and for every
    quantum: the counters agree with the queue, the queue holds copies only,
    and nothing but the copies is written. *)
Record rr_winv (h0 : Heap) (pc : list ref) (st : rr_state) : Prop := {
  rw_length : length (rr_heap st) = length h0;
  rw_frame : forall r, r ∉ pc -> rr_heap st !!! r = h0 !!! r;
  rw_arrival : forall r,
    arrival_time (rr_heap st !!! r) = arrival_time (h0 !!! r);
  rw_queue : forall r, r ∈ ready_queue st -> r ∈ pc;
  rw_count : completed st + length (ready_queue st) = process_index st;
  rw_index : process_index st <= length pc
}.


(** The result of a run without processes. *)
Definition empty_result : ResultDict := mkResultDict [] [] 0 0 0%Q 0%Q 0%Q.






#[global] Instance valid_process_dec p : Decision (valid_process p).
Proof. unfold valid_process. apply _. Defined.

#[global] Instance valid_input_dec h ps : Decision (valid_input h ps).
Proof. unfold valid_input. apply _. Defined.

(** ** Sample inputs *)

(** The processes of the specification's Round-Robin example:
    A (arrival 0, burst 5) and B (arrival 1, burst 3). *)
Definition ex_heap : Heap :=
  [Process_init "A" 0 5 1; Process_init "B" 1 3 2].
Definition ex_ps : list ref := [0; 1].

(** The same two processes listed with the later arrival first. *)
Definition late_first_heap : Heap :=
  [Process_init "B" 1 3 2; Process_init "A" 0 5 1].

(** The state of [schedule_rr] on [ex_heap] when its loop is entered, and
    after the first quantum of length 2. *)
Definition ex_rr_entry : rr_state :=
  rr_init (rr_processes_copy ex_heap ex_ps).2 (rr_processes_copy ex_heap ex_ps).1.

Definition ex_rr_after : rr_state :=
  Eval vm_compute in
    match rr_run (rr_processes_copy ex_heap ex_ps).2 2 ex_rr_entry with
    | Ok st => st
    | _ => ex_rr_entry
    end.

(** What [schedule_rr] hands back on the sample input with quantum 2. *)
Definition ex_rr_out : Heap * list ref * ResultDict :=
  Eval vm_compute in
    match schedule_rr 6 ex_heap ex_ps 2 with
    | Ok out => out
    | _ => ([], [], empty_result)
    end.

(** The answer [api_schedule] gives for the outcome of the policy it ran:
    the result, or status 500 when the policy raised. *)
Definition answer (r : policy_outcome) : option response :=
  match r with
  | Ok (_, _, result) => Some (ResultResponse result)
  | Raise e => Some (ErrorResponse (exn_message e) 500)
  | OutOfFuel => None
  end.

(** The store and the list [api_schedule] hands to the policy it runs: the
    copies of the records built from the request. *)
Definition api_copies (processes_data : list descriptor) : Heap * list ref :=
  copy_list (map Process_of_descriptor processes_data)
            (seq 0 (length processes_data)).















(** Fuel that suffices for the loops. *)
Definition select_fuel (ps : list ref) : nat := 2 * length ps.


(** * Properties *)

(** ** The store *)

Lemma setattr_length r f (h : Heap) : length (setattr r f h) = length h.
Proof. apply length_insert. Qed.


Lemma setattr_lookup_ne r r' f (h : Heap) :
  r <> r' -> setattr r f h !!! r' = h !!! r'.
Proof. intros. unfold setattr. by rewrite list_lookup_total_insert_ne. Qed.

(** The three assignments of a completion amount to one store update. *)
Lemma record_completion_eq r ct (h : Heap) :
  record_completion r ct h = <[r := completed_at ct (h !!! r)]> h.
Proof.
  unfold record_completion, setattr.
  destruct (decide (r < length h)) as [Hlt|Hge].
  - rewrite !list_lookup_total_insert_eq by (rewrite ?length_insert; lia).
    by rewrite !list_insert_insert_eq.
  - by rewrite !list_insert_ge by (rewrite ?length_insert; lia).
Qed.

Lemma record_completion_length r ct (h : Heap) :
  length (record_completion r ct h) = length h.
Proof. rewrite record_completion_eq. apply length_insert. Qed.


Lemma record_completion_lookup_ne r r' ct (h : Heap) :
  r <> r' -> record_completion r ct h !!! r' = h !!! r'.
Proof.
  intros. rewrite record_completion_eq. by rewrite list_lookup_total_insert_ne.
Qed.

(** ** Sums *)








(** ** Gantt chains *)








(** ** Sorting *)

Section SortFacts.
Context {A : Type} (key : A -> Z).

Lemma insert_by_perm x l : insert_by key x l ≡ₚ x :: l.
Proof.
  induction l as [|y l IH]; simpl; [done|].
  destruct (key x <=? key y)%Z; [done|]. rewrite IH. apply Permutation_swap.
Qed.

Lemma sort_by_perm l : sort_by key l ≡ₚ l.
Proof.
  induction l as [|x l IH]; simpl; [done|].
  rewrite insert_by_perm. by rewrite IH.
Qed.

Lemma insert_by_sorted x l :
  StronglySorted (fun a b => (key a <= key b)%Z) l ->
  StronglySorted (fun a b => (key a <= key b)%Z) (insert_by key x l).
Proof.
  induction 1 as [|y l Hs IH Hall]; simpl.
  - repeat constructor.
  - destruct (key x <=? key y)%Z eqn:Hxy.
    + apply Z.leb_le in Hxy. constructor; [by constructor|].
      constructor; [done|]. eapply Forall_impl; [exact Hall|].
      simpl. intros; lia.
    + apply Z.leb_gt in Hxy. constructor; [done|].
      rewrite insert_by_perm. constructor; [lia | done].
Qed.

Lemma sort_by_sorted l :
  StronglySorted (fun a b => (key a <= key b)%Z) (sort_by key l).
Proof.
  induction l as [|x l IH]; simpl; [constructor | by apply insert_by_sorted].
Qed.
End SortFacts.

(** ** Metrics aggregation *)

(** [get_results_dict] always returns: both divisions are guarded. *)
Lemma get_results_dict_ok (h : Heap) procs g t i :
  exists a1 a2 cpu,
    get_results_dict h procs g t i
    = Ok (mkResultDict (map (fun p => to_dict (h !!! p)) procs) g t i a1 a2 cpu).
Proof.
  unfold get_results_dict, py_truediv.
  assert (Hcpu : exists cpu,
    (if (t >? 0)%Z
     then x ← (if (t =? 0)%Z then Raise ZeroDivisionError
               else Ok (Qmake (t - i) 1 / Qmake t 1)%Q);
          Ok (x * Qmake 100 1)%Q
     else Ok 0%Q) = Ok cpu).
  { destruct (t >? 0)%Z eqn:Ht; [|by eexists].
    apply Z.gtb_lt in Ht. destruct (t =? 0)%Z eqn:Ht0; [|by eexists].
    apply Z.eqb_eq in Ht0. lia. }
  destruct Hcpu as [cpu ->].
  destruct procs as [|p procs]; [by do 3 eexists|].
  destruct (Z.of_nat (length (p :: procs)) =? 0)%Z eqn:Hn.
  - apply Z.eqb_eq in Hn. simpl in Hn. lia.
  - by do 3 eexists.
Qed.




(** ** FCFS *)




(** ** SJF and Priority *)

Lemma py_min_by_in {A} (key : A -> Z * Z) l : forall best,
  py_min_by key best l ∈ best :: l.
Proof.
  induction l as [|x l IH]; intros best; simpl; [by left|].
  specialize (IH (if key_lt (key x) (key best) then x else best)).
  apply elem_of_cons in IH as [->|IH].
  - destruct (key_lt _ _); [right; left | left].
  - by do 2 right.
Qed.

Lemma foldl_min_spec xs : forall x,
  let m := foldl Z.min x xs in
  m ∈ x :: xs /\ forall y, y ∈ x :: xs -> (m <= y)%Z.
Proof.
  induction xs as [|z xs IH]; intros x; simpl.
  - split; [by left|]. intros y Hy. apply list_elem_of_singleton in Hy. lia.
  - destruct (IH (Z.min x z)) as [Hin Hle]. split.
    + apply elem_of_cons in Hin as [->|Hin]; [|by do 2 right].
      destruct (Z.min_spec x z) as [[_ ->]|[_ ->]]; [left | right; left].
    + intros y Hy.
      assert (Hm : (foldl Z.min (Z.min x z) xs <= Z.min x z)%Z)
        by (apply Hle; left).
      apply elem_of_cons in Hy as [->|Hy]; [lia|].
      apply elem_of_cons in Hy as [->|Hy]; [lia|]. apply Hle. by right.
Qed.

Lemma py_min_spec xs :
  xs <> [] ->
  exists m, py_min xs = Some m /\ m ∈ xs /\ forall y, y ∈ xs -> (m <= y)%Z.
Proof.
  destruct xs as [|x xs]; [done|]. intros _. eexists. split; [done|].
  apply foldl_min_spec.
Qed.


Lemma completed_all (ps completed : list ref) :
  NoDup ps -> NoDup completed -> (forall r, r ∈ completed -> r ∈ ps) ->
  ~ length completed < length ps -> forall r, r ∈ ps -> r ∈ completed.
Proof.
  intros Hps Hc Hsub Hlen.
  assert (Hsm : completed ⊆+ ps) by by apply NoDup_submseteq.
  assert (Hp : completed ≡ₚ ps).
  { apply submseteq_length_Permutation; [done|]. lia. }
  intros r Hr. by rewrite Hp.
Qed.

Section NonPreemptiveFacts.
Variable key : Process -> Z * Z.
Variables (h : Heap) (ps : list ref).
Hypothesis Hvalid : valid_input h ps.



End NonPreemptiveFacts.

(** ** Round Robin *)

Lemma filter_none {A} (P : A -> Prop) `{forall x, Decision (P x)} (l : list A) :
  (forall x, x ∈ l -> ~ P x) -> filter P l = [].
Proof.
  induction l as [|x l IH]; intros Hno; [done|].
  rewrite filter_cons_False by (apply Hno; left).
  apply IH. intros y Hy. apply Hno. by right.
Qed.

(** On a waiting list sorted by arrival, the inner loop admits exactly the
    processes that have arrived, in order. *)
Lemma admit_arrivals_spec (a : ref -> Z) (h : Heap) ct waiting :
  (forall r, arrival_time (h !!! r) = a r) ->
  StronglySorted (fun x y => (a x <= a y)%Z) waiting ->
  forall queue pi,
  exists k,
    k <= length waiting
    /\ admit_arrivals h ct waiting queue pi = (queue ++ take k waiting, pi + k)
    /\ (forall r, r ∈ take k waiting -> (a r <= ct)%Z)
    /\ (forall r, r ∈ drop k waiting -> (ct < a r)%Z)
    /\ take k waiting = filter (fun r => (a r <= ct)%Z) waiting.
Proof.
  intros Ha. induction 1 as [|r w Hs IH Hall]; intros queue pi.
  - exists 0. simpl. rewrite app_nil_r, Nat.add_0_r.
    repeat split; try done; intros r Hr; by apply not_elem_of_nil in Hr.
  - simpl. rewrite Ha. destruct (a r <=? ct)%Z eqn:Hr.
    + apply Z.leb_le in Hr.
      destruct (IH (queue ++ [r]) (S pi)) as (k & Hk & -> & Hin & Hout & Hf).
      exists (S k). simpl. rewrite <- app_assoc. simpl.
      split; [lia|]. split; [f_equal; lia|]. split; [|split; [done|]].
      * intros x Hx. apply elem_of_cons in Hx as [->|Hx]; [done | by apply Hin].
      * rewrite filter_cons_True by done. by rewrite Hf.
    + apply Z.leb_gt in Hr. exists 0. simpl.
      rewrite app_nil_r, Nat.add_0_r. rewrite Forall_forall in Hall.
      assert (Hlate : forall x, x ∈ r :: w -> (ct < a x)%Z).
      { intros x Hx. apply elem_of_cons in Hx as [->|Hx]; [done|].
        specialize (Hall x Hx). lia. }
      split; [lia|]. split; [done|]. split; [|split; [done|]].
      * intros x Hx. by apply not_elem_of_nil in Hx.
      * symmetry. apply filter_none.
        intros x Hx. specialize (Hlate x Hx). lia.
Qed.







Lemma elem_of_take_drop {A} (l : list A) i x :
  x ∈ l <-> x ∈ take i l \/ x ∈ drop i l.
Proof. rewrite <- (take_drop i l) at 1. apply elem_of_app. Qed.






Section RoundRobinFacts.
Variables (h0 : Heap) (pc : list ref) (q : Z).
Hypothesis Hquantum : (0 < q)%Z.
Hypothesis Hvalid : valid_input h0 pc.
Hypothesis Hsorted :
  StronglySorted
    (fun x y => (arrival_time (h0 !!! x) <= arrival_time (h0 !!! y))%Z) pc.








End RoundRobinFacts.

(** ** The private copies of [schedule_rr] *)








(** ** What holds on every input *)

Lemma setattr_arrival r f (h : Heap) r' :
  (forall p, arrival_time (f p) = arrival_time p) ->
  arrival_time (setattr r f h !!! r') = arrival_time (h !!! r').
Proof.
  intros Hf. unfold setattr. rewrite list_lookup_total_insert.
  case_decide as Hd; [|done]. destruct Hd as [-> _]. apply Hf.
Qed.

Lemma record_completion_arrival r ct (h : Heap) r' :
  arrival_time (record_completion r ct h !!! r') = arrival_time (h !!! r').
Proof.
  rewrite record_completion_eq, list_lookup_total_insert.
  case_decide as Hd; [|done]. by destruct Hd as [-> _].
Qed.

Lemma record_completion_remaining r ct (h : Heap) r' :
  remaining_time (record_completion r ct h !!! r') = remaining_time (h !!! r').
Proof.
  rewrite record_completion_eq, list_lookup_total_insert.
  case_decide as Hd; [|done]. by destruct Hd as [-> _].
Qed.

Lemma setattr_frame r f (h : Heap) r' :
  r' <> r -> setattr r f h !!! r' = h !!! r'.
Proof. intros. by apply setattr_lookup_ne. Qed.

(** Whatever the order of the waiting list, the inner loop admits a prefix
    of it. *)
Lemma admit_arrivals_prefix (h : Heap) ct waiting : forall queue pi,
  exists k, k <= length waiting
    /\ admit_arrivals h ct waiting queue pi = (queue ++ take k waiting, pi + k).
Proof.
  induction waiting as [|r w IH]; intros queue pi; simpl.
  - exists 0. by rewrite app_nil_r, Nat.add_0_r.
  - destruct (_ <=? _)%Z.
    + destruct (IH (queue ++ [r]) (S pi)) as (k & Hk & ->).
      exists (S k). simpl. rewrite <- app_assoc. simpl.
      split; [lia|]. f_equal. lia.
    + exists 0. simpl. rewrite app_nil_r, Nat.add_0_r. split; [lia | done].
Qed.

Section RoundRobinAlways.
Variables (h0 : Heap) (pc : list ref) (q : Z).

Lemma rr_init_winv : rr_winv h0 pc (rr_init pc h0).
Proof.
  unfold rr_init. destruct pc as [|r pc']; [|destruct (_ <=? _)%Z];
    split; simpl; try done; try lia; intros x Hx;
    try (by apply not_elem_of_nil in Hx).
  apply list_elem_of_singleton in Hx. subst x. left.
Qed.

(** Inside the loop the body never raises: the two accesses that could
    fail, [processes_copy[process_index]] and [popleft], are in range. *)
Lemma rr_body_winv st :
  rr_winv h0 pc st -> completed st < length pc ->
  exists st', rr_body pc q st = Ok st' /\ rr_winv h0 pc st'.
Proof.
  intros [Hlen Hframe Harr Hqu Hcount Hidx] Hlt. unfold rr_body.
  assert (Hidle : exists st1, rr_idle pc st = Ok st1 /\ rr_winv h0 pc st1
                              /\ ready_queue st1 <> []).
  { unfold rr_idle. destruct (ready_queue st) as [|c qu] eqn:Hqueue.
    - simpl in Hcount.
      destruct (lookup_lt_is_Some_2 pc (process_index st)) as [r Hr]; [lia|].
      rewrite Hr. eexists. split; [done|]. split; [|done].
      apply lookup_lt_Some in Hr as Hr'.
      split; simpl; try done; try lia.
      intros x Hx. apply list_elem_of_singleton in Hx. subst x.
      by eapply list_elem_of_lookup_2.
    - exists st. rewrite Hqueue. split; [done|]. split; [|done].
      split; try done. by rewrite Hqueue. by rewrite Hqueue. }
  destruct Hidle as (st1 & -> & [Hlen1 Hframe1 Harr1 Hqu1 Hcount1 Hidx1] & Hne).
  simpl. unfold rr_run.
  destruct (ready_queue st1) as [|cur queue] eqn:Hqueue; [done|].
  cbv zeta.
  set (exec := Z.min q _).
  set (h1 := setattr cur _ (rr_heap st1)).
  set (ct1 := (rr_current_time st1 + exec)%Z).
  destruct (admit_arrivals_prefix h1 ct1 (drop (process_index st1) pc)
              queue (process_index st1)) as (k & Hk & ->).
  rewrite length_drop in Hk. simpl in Hcount1.
  assert (Hcur : cur ∈ pc) by (apply Hqu1; left).
  assert (Hnew : forall r, r ∈ queue ++ take k (drop (process_index st1) pc) ->
                           r ∈ pc).
  { intros r Hr. apply elem_of_app in Hr as [Hr|Hr]; [apply Hqu1; by right|].
    apply (elem_of_take_drop pc (process_index st1)). right.
    apply (elem_of_take_drop _ k). by left. }
  assert (Hnewlen : length (take k (drop (process_index st1) pc)) = k)
    by (rewrite length_take, length_drop; lia).
  assert (Hlenh1 : length h1 = length h0)
    by (unfold h1; by rewrite setattr_length).
  assert (Hframeh1 : forall r, r ∉ pc -> h1 !!! r = h0 !!! r).
  { intros r Hr. unfold h1. rewrite setattr_frame; [by apply Hframe1|].
    by intros ->. }
  assert (Harrh1 : forall r, arrival_time (h1 !!! r) = arrival_time (h0 !!! r)).
  { intros r. unfold h1. rewrite setattr_arrival; [apply Harr1 | done]. }
  destruct (_ >? 0)%Z; eexists; (split; [done|]); split; simpl; try done;
    try lia.
  - intros r Hr. apply elem_of_app in Hr as [Hr|Hr]; [by apply Hnew|].
    apply list_elem_of_singleton in Hr. by subst r.
  - rewrite !length_app, Hnewlen. simpl. lia.
  - by rewrite record_completion_length.
  - intros r Hr. rewrite record_completion_lookup_ne; [by apply Hframeh1|].
    by intros ->.
  - intros r. by rewrite record_completion_arrival.
  - rewrite !length_app, Hnewlen. lia.
Qed.

Lemma rr_reachable_winv st : rr_reachable pc q h0 st -> rr_winv h0 pc st.
Proof.
  induction 1 as [|st st' _ IH Hlt Hbody]; [apply rr_init_winv|].
  destruct (rr_body_winv st IH Hlt) as (st'' & Hb & Hw).
  rewrite Hbody in Hb. by injection Hb as ->.
Qed.

(** The loop returns or is still running; it never raises. *)
Lemma rr_loop_winv fuel : forall st,
  rr_winv h0 pc st ->
  rr_loop pc q fuel st = OutOfFuel
  \/ exists st', rr_loop pc q fuel st = Ok st' /\ rr_winv h0 pc st'.
Proof.
  induction fuel as [|fuel IH]; intros st Hw; simpl;
    destruct (completed st <? length pc) eqn:Hlt; eauto.
  apply Nat.ltb_lt in Hlt.
  destruct (rr_body_winv st Hw Hlt) as (st1 & -> & Hw1). simpl. by apply IH.
Qed.
End RoundRobinAlways.

(** ** What a policy writes *)

Lemma fcfs_loop_frame l : forall (h : Heap) g ct idle h' g' ct' idle',
  fcfs_loop l h g ct idle = (h', g', ct', idle') ->
  length h' = length h /\ forall r, r ∉ l -> h' !!! r = h !!! r.
Proof.
  induction l as [|x l IH]; simpl; intros h g ct idle h' g' ct' idle' Hloop.
  - by injection Hloop as <- _ _ _.
  - destruct (_ <? _)%Z; apply IH in Hloop as [Hlen Hframe];
      rewrite record_completion_length in Hlen; (split; [done|]);
      intros r Hr; apply not_elem_of_cons in Hr as [Hrx Hrl];
      rewrite (Hframe r Hrl); by apply record_completion_lookup_ne.
Qed.

Lemma select_loop_frame key ps fuel :
  forall (h : Heap) completed g ct idle h' g' ct' idle',
  select_loop key ps fuel h completed g ct idle = Ok (h', g', ct', idle') ->
  length h' = length h /\ forall r, r ∉ ps -> h' !!! r = h !!! r.
Proof.
  induction fuel as [|fuel IH]; simpl;
    intros h completed g ct idle h' g' ct' idle' Hloop;
    destruct (length completed <? length ps); try done;
    try (by injection Hloop as <- _ _ _).
  destruct (available_at ps h completed ct) as [|first others] eqn:Hav.
  - destruct (py_min _); [|done]. by apply IH in Hloop.
  - set (selected := py_min_by _ first others) in *.
    assert (Hsel : selected ∈ ps).
    { assert (Hin : selected ∈ available_at ps h completed ct)
        by (rewrite Hav; apply py_min_by_in).
      by apply list_elem_of_filter in Hin as [_ ?]. }
    apply IH in Hloop as [Hlen Hframe].
    rewrite record_completion_length in Hlen. split; [done|].
    intros r Hr. rewrite (Hframe r Hr).
    apply record_completion_lookup_ne. by intros ->.
Qed.

(** A store that agrees with [h1] off the copies still begins with the
    caller's store [h]. *)
Lemma heap_prefix_preserved (h h1 h' : Heap) (refs : list ref) :
  take (length h) h1 = h ->
  length h' = length h1 ->
  (forall r, r ∉ refs -> h' !!! r = h1 !!! r) ->
  (forall r, r ∈ refs -> length h <= r) ->
  take (length h) h' = h.
Proof.
  intros Htake Hlen Hframe Hge.
  assert (Hle : length h <= length h1).
  { rewrite <- Htake at 1. rewrite length_take. lia. }
  rewrite <- Htake at 2. apply list_eq. intros i. rewrite !lookup_take.
  case_decide as Hi; [|done].
  rewrite !list_lookup_lookup_total_lt by lia. f_equal. apply Hframe.
  intros Hin. specialize (Hge i Hin). lia.
Qed.

(** ** Round Robin under a non-positive quantum *)

Section RoundRobinSpinning.
Variables (h0 : Heap) (pc : list ref) (q : Z).
Hypothesis Hquantum : (q <= 0)%Z.
Hypothesis Hpc : pc <> [].


End RoundRobinSpinning.



(** ** Reachable states of the Round-Robin loop *)



Lemma rr_idle_heap pc st st1 :
  rr_idle pc st = Ok st1 -> rr_heap st1 = rr_heap st.
Proof.
  unfold rr_idle. destruct (ready_queue st); [|by intros [= ->]].
  destruct (pc !! process_index st); [|done]. by intros [= <-].
Qed.

Lemma rr_processes_copy_sorted (h : Heap) (ps : list ref) :
  StronglySorted
    (fun x y => (arrival_time ((rr_processes_copy h ps).1 !!! x)
                 <= arrival_time ((rr_processes_copy h ps).1 !!! y))%Z)
    (rr_processes_copy h ps).2.
Proof.
  unfold rr_processes_copy. destruct (copy_list h ps) as [h1 refs]. simpl.
  apply (sort_by_sorted (fun p => arrival_time (h1 !!! p))).
Qed.

(** ** The four policies on a valid input *)






(** * The claims of the specification *)









(** C4, as the specification has it: the Gantt sequence of the example
    would be the four entries [A:0-2, B:2-4, A:4-6, B:6-7].  It is not: A
    has one tick left when B completes at time 7. *)
Lemma rr_quantum_boundary_spec_gantt_wrong :
  exists h' ps' res,
    schedule_rr 6 ex_heap ex_ps 2 = Ok (h', ps', res)
    /\ gantt res <> [mkGanttEntry "A" 0 2; mkGanttEntry "B" 2 4;
                     mkGanttEntry "A" 4 6; mkGanttEntry "B" 6 7].
Proof. vm_compute. do 3 eexists. split; [reflexivity | discriminate]. Qed.

(** C4, amended. [schedule_rr] on A (arrival 0, burst 5) and B (arrival 1,
    burst 3) with quantum 2 produces [A:0-2, B:2-4, A:4-6, B:6-7, A:7-8]: A
    is preempted at time 2 with 3 ticks left, B, which arrived at time 1, is
    queued before A is queued again, and A runs its last tick after B has
    completed. *)
Theorem rr_quantum_boundary_gantt :
  exists h' ps' res,
    schedule_rr 6 ex_heap ex_ps 2 = Ok (h', ps', res)
    /\ gantt res = [mkGanttEntry "A" 0 2; mkGanttEntry "B" 2 4;
                    mkGanttEntry "A" 4 6; mkGanttEntry "B" 6 7;
                    mkGanttEntry "A" 7 8]
    /\ total_time res = 8%Z.
Proof. vm_compute. do 3 eexists. split; [reflexivity | split; reflexivity]. Qed.



(** C8. In [schedule_rr], on every input and for every quantum: when a
    process has run for its slice up to time [t] and still has
    [remaining_time > 0], the ready queue is, in this order, what was queued
    behind it, then every not yet queued copy with [arrival_time <= t] in
    arrival order, then the preempted process itself. *)
Theorem rr_arrivals_before_preempted (h : Heap) (ps : list ref) (q : Z)
    (st st1 st' : rr_state) (cur : ref) (queue : list ref) :
  rr_reachable (rr_processes_copy h ps).2 q (rr_processes_copy h ps).1 st ->
  rr_idle (rr_processes_copy h ps).2 st = Ok st1 ->
  ready_queue st1 = cur :: queue ->
  rr_run (rr_processes_copy h ps).2 q st1 = Ok st' ->
  (0 < remaining_time (rr_heap st' !!! cur))%Z ->
  rr_current_time st'
  = (rr_current_time st1
     + Z.min q (remaining_time (rr_heap st1 !!! cur)))%Z
  /\ ready_queue st'
     = queue
       ++ filter (fun r => (arrival_time ((rr_processes_copy h ps).1 !!! r)
                            <= rr_current_time st')%Z)
                 (drop (process_index st1) (rr_processes_copy h ps).2)
       ++ [cur].
Proof.
  pose proof (rr_processes_copy_sorted h ps) as Hs.
  destruct (rr_processes_copy h ps) as [h1 pc]. simpl in *.
  intros Hreach Hidle Hqueue Hrun Hrem.
  pose proof (rr_reachable_winv h1 pc q st Hreach) as Hw.
  pose proof (rr_idle_heap _ _ _ Hidle) as Hheap.
  unfold rr_run in Hrun. rewrite Hqueue in Hrun. cbv zeta in Hrun.
  set (exec := Z.min q (remaining_time (rr_heap st1 !!! cur))) in *.
  set (h2 := setattr cur _ (rr_heap st1)) in *.
  set (ct1 := (rr_current_time st1 + exec)%Z) in *.
  assert (Harr : forall r, arrival_time (h2 !!! r) = arrival_time (h1 !!! r)).
  { intros r. unfold h2. rewrite setattr_arrival by done.
    rewrite Hheap. apply (rw_arrival _ _ _ Hw). }
  assert (Hsd : StronglySorted
            (fun x y => (arrival_time (h1 !!! x) <= arrival_time (h1 !!! y))%Z)
            (drop (process_index st1) pc)).
  { rewrite <- (take_drop (process_index st1) pc) in Hs.
    by apply StronglySorted_app_1_r in Hs. }
  destruct (admit_arrivals_spec (fun r => arrival_time (h1 !!! r)) h2 ct1
              (drop (process_index st1) pc) Harr Hsd queue (process_index st1))
    as (k & _ & Hadmit & _ & _ & Hfilter).
  rewrite Hadmit, Hfilter in Hrun.
  destruct (remaining_time (h2 !!! cur) >? 0)%Z eqn:Htest;
    injection Hrun as <-; simpl in *.
  - split; [done|]. by rewrite <- app_assoc.
  - rewrite record_completion_remaining in Hrem.
    rewrite Z.gtb_ltb in Htest. apply Z.ltb_ge in Htest. lia.
Qed.

Lemma rr_arrivals_before_preempted_witness :
  rr_current_time ex_rr_after
  = (rr_current_time ex_rr_entry
     + Z.min 2 (remaining_time (rr_heap ex_rr_entry !!! 2%nat)))%Z
  /\ ready_queue ex_rr_after
     = []
       ++ filter (fun r => (arrival_time ((rr_processes_copy ex_heap ex_ps).1 !!! r)
                            <= rr_current_time ex_rr_after)%Z)
                 (drop (process_index ex_rr_entry)
                       (rr_processes_copy ex_heap ex_ps).2)
       ++ [2].
Proof.
  apply (rr_arrivals_before_preempted ex_heap ex_ps 2
           ex_rr_entry ex_rr_entry ex_rr_after 2 []);
    [apply rr_reach_init | reflexivity | reflexivity | reflexivity
    | reflexivity].
Defined.

(** ** Frames of the four policies *)

Lemma copy_list_alloc (h : Heap) (ps : list ref) :
  take (length h) (copy_list h ps).1 = h
  /\ length h <= length (copy_list h ps).1
  /\ forall r, r ∈ (copy_list h ps).2 -> length h <= r.
Proof.
  unfold copy_list. simpl. split; [by rewrite take_app_length|].
  split; [rewrite length_app; lia|].
  intros r Hr. apply elem_of_seq in Hr. lia.
Qed.

Lemma rr_processes_copy_alloc (h : Heap) (ps : list ref) :
  take (length h) (rr_processes_copy h ps).1 = h
  /\ forall r, r ∈ (rr_processes_copy h ps).2 -> length h <= r.
Proof.
  destruct (copy_list_alloc h ps) as (Ht & _ & Hge).
  unfold rr_processes_copy. destruct (copy_list h ps) as [h1 refs]. simpl in *.
  split; [done|]. intros r Hr. apply Hge. by rewrite sort_by_perm in Hr.
Qed.

(** [schedule_rr] writes its own copies only. *)
Lemma schedule_rr_frame fuel (h : Heap) ps q h' ps' res :
  schedule_rr fuel h ps q = Ok (h', ps', res) ->
  ps' = ps /\ take (length h) h' = h.
Proof.
  unfold schedule_rr. destruct (rr_processes_copy_alloc h ps) as [Ht Hge].
  destruct (rr_processes_copy h ps) as [h1 pc]. simpl in *.
  destruct (rr_loop_winv h1 pc q fuel (rr_init pc h1) (rr_init_winv h1 pc))
    as [->|(st & -> & Hw)]; [done|]. simpl.
  destruct (get_results_dict_ok (rr_heap st) pc (rr_gantt st)
              (rr_current_time st) (rr_total_idle_time st))
    as (a1 & a2 & cpu & ->). simpl.
  intros [= <- <- _]. split; [done|].
  eapply (heap_prefix_preserved h h1 _ pc); try done.
  - apply (rw_length _ _ _ Hw).
  - apply (rw_frame _ _ _ Hw).
Qed.

(** The other three policies write the records of their argument only. *)
Lemma schedule_fcfs_frame (h : Heap) ps h' ps' res :
  schedule_fcfs h ps = Ok (h', ps', res) ->
  length h' = length h /\ forall r, r ∉ ps -> h' !!! r = h !!! r.
Proof.
  unfold schedule_fcfs.
  destruct (fcfs_loop _ h [] 0%Z 0%Z) as [[[h1 g] ct] idle] eqn:Hloop.
  apply fcfs_loop_frame in Hloop as [Hlen Hframe].
  destruct (get_results_dict_ok h1 (sort_by (fun p => arrival_time (h !!! p)) ps)
              g ct idle) as (a1 & a2 & cpu & ->). simpl.
  intros [= <- _ _]. split; [done|]. intros r Hr. apply Hframe.
  by rewrite sort_by_perm.
Qed.

Lemma schedule_select_frame key fuel (h : Heap) ps h' ps' res :
  schedule_select key ps fuel h = Ok (h', ps', res) ->
  length h' = length h /\ forall r, r ∉ ps -> h' !!! r = h !!! r.
Proof.
  unfold schedule_select.
  destruct (select_loop key ps fuel h [] [] 0%Z 0%Z)
    as [[[[h1 g] ct] idle]| |] eqn:Hloop; try done. simpl.
  apply select_loop_frame in Hloop.
  destruct (get_results_dict_ok h1 ps g ct idle) as (a1 & a2 & cpu & ->).
  simpl. by intros [= <- _ _].
Qed.

Lemma frame_on_copies (h : Heap) ps h' :
  length h' = length (copy_list h ps).1 ->
  (forall r, r ∉ (copy_list h ps).2 -> h' !!! r = (copy_list h ps).1 !!! r) ->
  take (length h) h' = h.
Proof.
  intros Hlen Hframe. destruct (copy_list_alloc h ps) as (Ht & _ & Hge).
  by eapply heap_prefix_preserved.
Qed.

(** C3, as the specification has it: every policy function would leave the
    records and the list it is given as they were.  [schedule_fcfs] sorts
    the list it is given and writes the result attributes of its records;
    [schedule_sjf] writes them too. *)
Lemma fcfs_mutates_caller_records :
  (exists h' ps' res,
     schedule_fcfs late_first_heap ex_ps = Ok (h', ps', res)
     /\ ps' = [1; 0] /\ ps' <> ex_ps
     /\ finish_time (h' !!! 0) = 8%Z
     /\ h' <> late_first_heap)
  /\ (exists h' ps' res,
        schedule_sjf 4 ex_heap ex_ps = Ok (h', ps', res)
        /\ finish_time (h' !!! 0) = 5%Z
        /\ h' <> ex_heap).
Proof.
  split; vm_compute; do 3 eexists; (split; [reflexivity|]);
    repeat split; discriminate.
Qed.

(** C3, amended.  Whatever the input and the quantum, a call that returns
    leaves every object of the caller's store as it was when it is
    [schedule_rr], which works on its own copies (and hands the caller's
    list back in its order), or any of the four policies handed a fresh list
    of copies, as [api_schedule] and [main] do. *)
Theorem policies_frame_on_copies (h : Heap) (ps : list ref) (q : Z)
    (fuel : nat) (o : policy_outcome) (h' : Heap) (ps' : list ref)
    (res : ResultDict) :
  o = schedule_rr fuel h ps q
  \/ o = schedule_fcfs (copy_list h ps).1 (copy_list h ps).2
  \/ o = schedule_sjf fuel (copy_list h ps).1 (copy_list h ps).2
  \/ o = schedule_rr fuel (copy_list h ps).1 (copy_list h ps).2 q
  \/ o = schedule_priority fuel (copy_list h ps).1 (copy_list h ps).2 ->
  o = Ok (h', ps', res) ->
  take (length h) h' = h
  /\ (o = schedule_rr fuel h ps q -> ps' = ps).
Proof.
  intros Hcall Hret. split.
  2:{ intros ->. by apply schedule_rr_frame in Hret as [? _]. }
  destruct Hcall as [-> | [-> | [-> | [-> | ->]]]].
  - by apply schedule_rr_frame in Hret as [_ ?].
  - apply schedule_fcfs_frame in Hret as [? ?]. by eapply frame_on_copies.
  - apply schedule_select_frame in Hret as [? ?]. by eapply frame_on_copies.
  - apply schedule_rr_frame in Hret as [_ Ht].
    destruct (copy_list_alloc h ps) as (Hc & Hle & _).
    transitivity (take (length h) (take (length (copy_list h ps).1) h')).
    + rewrite take_take. f_equal. lia.
    + by rewrite Ht.
  - apply schedule_select_frame in Hret as [? ?]. by eapply frame_on_copies.
Qed.

Lemma policies_frame_on_copies_witness :
  take (length ex_heap) ex_rr_out.1.1 = ex_heap
  /\ (schedule_rr 6 ex_heap ex_ps 2 = schedule_rr 6 ex_heap ex_ps 2 ->
      ex_rr_out.1.2 = ex_ps).
Proof.
  apply (policies_frame_on_copies ex_heap ex_ps 2 6
           (schedule_rr 6 ex_heap ex_ps 2)
           ex_rr_out.1.1 ex_rr_out.1.2 ex_rr_out.2);
    [left; reflexivity | reflexivity].
Defined.

(** ** Requests *)






(** C2, as the specification has it: every policy would reject an empty
    process list with an error.  Each of them returns the empty result. *)
Lemma empty_input_not_rejected :
  schedule_fcfs [] [] = Ok ([], [], empty_result)
  /\ schedule_sjf 0 [] [] = Ok ([], [], empty_result)
  /\ schedule_rr 0 [] [] 3 = Ok ([], [], empty_result)
  /\ schedule_priority 0 [] [] = Ok ([], [], empty_result).
Proof. repeat split; reflexivity. Qed.

(** C2, amended.  Given an empty process list, each of the four policies
    returns the empty result (no process, no Gantt entry, total time, idle
    time, averages and utilization 0) and leaves the store as it was;
    [get_results_dict] never divides by zero; the rejection of an empty list
    is made by the caller [api_schedule], which answers "No processes
    provided" with status 400 before any policy runs. *)
Theorem empty_input_handling (h : Heap) (fuel : nat) (q : Z)
    (algorithm : string) :
  schedule_fcfs h [] = Ok (h, [], empty_result)
  /\ schedule_sjf fuel h [] = Ok (h, [], empty_result)
  /\ schedule_rr fuel h [] q = Ok (h, [], empty_result)
  /\ schedule_priority fuel h [] = Ok (h, [], empty_result)
  /\ (forall procs g t i e, get_results_dict h procs g t i <> Raise e)
  /\ api_schedule fuel [] algorithm q
     = Some (ErrorResponse "No processes provided" 400).
Proof.
  split; [done|]. split; [by destruct fuel|]. split; [|split; [by destruct fuel|]].
  - unfold schedule_rr, rr_processes_copy, copy_list. simpl.
    rewrite app_nil_r. by destruct fuel.
  - split; [|done]. intros procs g t i e.
    by destruct (get_results_dict_ok h procs g t i) as (a1 & a2 & cpu & ->).
Qed.

(** * Further properties of the code *)

(** ** The endpoint *)

(** [api_schedule] on a request with at least one process: the dispatch on
    the algorithm name, run on fresh copies. *)
Lemma api_schedule_nonempty fuel (d : descriptor) data algorithm q :
  api_schedule fuel (d :: data) algorithm q
  = if String.eqb algorithm "fcfs"
    then answer (schedule_fcfs (api_copies (d :: data)).1
                               (api_copies (d :: data)).2)
    else if String.eqb algorithm "sjf"
    then answer (schedule_sjf fuel (api_copies (d :: data)).1
                              (api_copies (d :: data)).2)
    else if String.eqb algorithm "rr"
    then answer (schedule_rr fuel (api_copies (d :: data)).1
                             (api_copies (d :: data)).2 q)
    else if String.eqb algorithm "priority"
    then answer (schedule_priority fuel (api_copies (d :: data)).1
                                   (api_copies (d :: data)).2)
    else Some (ErrorResponse "Invalid algorithm" 400).
Proof. reflexivity. Qed.






(** An algorithm name other than the four known ones is refused with
    "Invalid algorithm" and status 400, once the process list is known to be
    non-empty; nothing is scheduled. *)
Theorem api_schedule_invalid_algorithm (fuel : nat) (data : list descriptor)
    (algorithm : string) (q : Z) :
  data <> [] ->
  algorithm <> "fcfs"%string -> algorithm <> "sjf"%string ->
  algorithm <> "rr"%string -> algorithm <> "priority"%string ->
  api_schedule fuel data algorithm q
  = Some (ErrorResponse "Invalid algorithm" 400).
Proof.
  intros Hne H1 H2 H3 H4. destruct data as [|d data]; [done|].
  rewrite api_schedule_nonempty.
  apply String.eqb_neq in H1, H2, H3, H4. by rewrite H1, H2, H3, H4.
Qed.

Lemma api_schedule_invalid_algorithm_witness :
  api_schedule 0 [("A"%string, 0, 5, 1)%Z] "lottery" 3
  = Some (ErrorResponse "Invalid algorithm" 400).
Proof.
  apply (api_schedule_invalid_algorithm 0 [("A"%string, 0, 5, 1)%Z] "lottery" 3);
    discriminate.
Defined.

Lemma descriptor_of_Process_of_descriptor (d : descriptor) :
  descriptor_of (Process_of_descriptor d) = d.
Proof. by destruct d as [[[id a] b] p]. Qed.




(** ** The order of the processes in a result *)

Section SortStable.
Context {A : Type} (key : A -> Z).


End SortStable.










(** ** Round Robin: what one iteration does *)



Section RoundRobinInvariants.
Variables (h0 : Heap) (pc : list ref) (q : Z).
Hypothesis Hquantum : (0 < q)%Z.
Hypothesis Hvalid : valid_input h0 pc.
Hypothesis Hsorted :
  StronglySorted
    (fun x y => (arrival_time (h0 !!! x) <= arrival_time (h0 !!! y))%Z) pc.


End RoundRobinInvariants.



(** ** Round Robin: the slices *)




(** ** FCFS: the schedule *)





(** ** SJF and Priority: the selection *)




Section NonPreemptiveSteps.
Variable key : Process -> Z * Z.
Variables (h : Heap) (ps : list ref).
Hypothesis Hvalid : valid_input h ps.




End NonPreemptiveSteps.

Section NonPreemptiveRule.
Variable key : Process -> Z * Z.
Hypothesis Hkey : forall p p',
  descriptor_of p = descriptor_of p' -> key p = key p'.
Variables (h : Heap) (ps : list ref).
Hypothesis Hvalid : valid_input h ps.





End NonPreemptiveRule.





(** ** The first Gantt entry *)











(** ** Idle time and utilization *)















(** ** The averages *)







(** ** A record listed twice *)

Lemma completed_fewer (ps completed : list ref) :
  ~ NoDup ps -> NoDup completed -> (forall r, r ∈ completed -> r ∈ ps) ->
  length completed < length ps.
Proof.
  intros Hdup Hnd Hsub.
  assert (Hsm : completed ⊆+ ps) by by apply NoDup_submseteq.
  pose proof (submseteq_length _ _ Hsm) as Hle.
  destruct (decide (length completed = length ps)) as [Heq|]; [|lia].
  exfalso. apply Hdup.
  assert (Hp : completed ≡ₚ ps)
    by (apply submseteq_length_Permutation; [done | lia]).
  by rewrite <- Hp.
Qed.

Lemma select_loop_duplicate key ps fuel :
  ~ NoDup ps ->
  forall (h : Heap) completed g ct idle,
  NoDup completed -> (forall r, r ∈ completed -> r ∈ ps) ->
  2 * (length ps - 1 - length completed)
    + match available_at ps h completed ct with [] => 1 | _ => 0 end < fuel ->
  select_loop key ps fuel h completed g ct idle = Raise ValueError.
Proof.
  intros Hdup. induction fuel as [|fuel IH];
    intros h completed g ct idle Hnd Hsub Hfuel; [lia|].
  pose proof (completed_fewer ps completed Hdup Hnd Hsub) as Hlt.
  simpl. apply Nat.ltb_lt in Hlt as Hlt'. rewrite Hlt'.
  destruct (available_at ps h completed ct) as [|first others] eqn:Hav;
    rewrite ?Hav in Hfuel.
  - destruct (pending ps completed) as [|r0 rest] eqn:Hpend; [done|].
    destruct (py_min_spec (map (fun p => arrival_time (h !!! p)) (r0 :: rest)))
      as (na & -> & Hna & _); [done|].
    apply list_elem_of_fmap in Hna as (r1 & -> & Hr1).
    rewrite <- Hpend in Hr1. apply list_elem_of_filter in Hr1 as [Hr1c Hr1].
    apply IH; [done | done |].
    assert (Hin : r1 ∈ available_at ps h completed (arrival_time (h !!! r1))).
    { apply list_elem_of_filter. split; [split; [lia | done] | done]. }
    destruct (available_at ps h completed (arrival_time (h !!! r1)));
      [by apply not_elem_of_nil in Hin | lia].
  - set (selected := py_min_by _ first others).
    assert (Hsel : selected ∈ available_at ps h completed ct)
      by (rewrite Hav; apply py_min_by_in).
    apply list_elem_of_filter in Hsel as [[_ Hselc] Hselps].
    assert (Hnd' : NoDup (completed ++ [selected])).
    { apply NoDup_app. split; [done|]. split; [|apply NoDup_singleton].
      intros r Hr Hr'. apply list_elem_of_singleton in Hr'. by subst r. }
    assert (Hsub' : forall r, r ∈ completed ++ [selected] -> r ∈ ps).
    { intros r Hr. apply elem_of_app in Hr as [Hr|Hr]; [by apply Hsub|].
      apply list_elem_of_singleton in Hr. by subst r. }
    pose proof (completed_fewer ps _ Hdup Hnd' Hsub') as Hlt2.
    rewrite length_app in Hlt2. simpl in Hlt2.
    apply IH; [done | done |]. rewrite length_app. simpl.
    match goal with |- context [match ?a with [] => _ | _ => _ end] =>
      destruct a end; lia.
Qed.

(** [schedule_sjf] and [schedule_priority] given a list that holds the same
    record twice always end in a [ValueError]: once every record has run,
    the list is still longer than [completed], and [min] is taken of an empty
    sequence.  The values of the records do not matter. *)
Theorem schedule_select_duplicate (h : Heap) (ps : list ref) (fuel : nat) :
  ~ NoDup ps -> select_fuel ps <= fuel ->
  schedule_sjf fuel h ps = Raise ValueError
  /\ schedule_priority fuel h ps = Raise ValueError.
Proof.
  intros Hdup Hfuel.
  assert (H : forall key, schedule_select key ps fuel h = Raise ValueError).
  { intros key. unfold schedule_select.
    rewrite (select_loop_duplicate key ps fuel Hdup); [done | apply NoDup_nil_2 | |].
    - intros r Hr. by apply not_elem_of_nil in Hr.
    - unfold select_fuel in Hfuel. simpl.
      assert (0 < length ps).
      { destruct ps; [|simpl; lia]. exfalso. apply Hdup. apply NoDup_nil_2. }
      destruct (available_at ps h [] 0%Z); lia. }
  split; apply H.
Qed.

Lemma schedule_select_duplicate_witness :
  schedule_sjf 4 ex_heap [0; 0] = Raise ValueError
  /\ schedule_priority 4 ex_heap [0; 0] = Raise ValueError.
Proof.
  apply (schedule_select_duplicate ex_heap [0; 0] 4);
    [apply (bool_decide_unpack _); reflexivity | vm_compute; lia].
Defined.

(** ** Round Robin with a quantum no burst exceeds *)






Section RoundRobinLargeQuantum.
Variables (h0 : Heap) (pc : list ref) (q : Z).
Hypothesis Hquantum : (0 < q)%Z.
Hypothesis Hvalid : valid_input h0 pc.
Hypothesis Hsorted :
  StronglySorted
    (fun x y => (arrival_time (h0 !!! x) <= arrival_time (h0 !!! y))%Z) pc.
Hypothesis Hlarge : forall r, r ∈ pc -> (burst_time (h0 !!! r) <= q)%Z.

End RoundRobinLargeQuantum.



